(** * head_nod.py: the harmonic oscillator and the per-frame head pose

    A shallow embedding of [src/python/puppetry/examples/head_nod.py]:
    the class [Sho] (simple harmonic oscillator), the module-level
    oscillators [pulsor] and [rotator], [computeData] and the frame loop
    [puppetry_coroutine].

    Conventions of the embedding.
    - The script is read twice.  In the main reading Python [float]
      values are real numbers ([R] of the Standard Library): [math.pi] is
      [PI], [math.sin]/[math.cos] are [sin]/[cos], the literal [0.1] is
      [1/10]; the theorems are proved there.  In the second reading,
      module [F64], the class [Sho] is embedded once more over the
      binary64 floats of the kernel, with rounding, infinities and NaN;
      it computes, and shows by evaluation where the code leaves the real
      reading.  [math.sin] and [math.cos] are not part of [F64].
    - Python [int(x)] on a float truncates toward zero; it is [py_int]
      ([F64.int_of_float], which also raises on infinities and NaN).
    - Float division raises [ZeroDivisionError] on a zero divisor; it is
      [py_div] ([F64.fdiv]), in the error monad [result].
    - An object with mutable attributes is a record, and a method that
      mutates [self] returns the new record.  The two module-level
      oscillators mutated by [computeData] are threaded as [Globals].
    - A Python dict with string keys is a [gmap string _]. *)

From Stdlib Require Import Reals Lra Lia ZArith List.
From Stdlib Require Floats.
From stdpp Require Import base gmap strings.

Local Open Scope R_scope.

(** ** Exceptions *)

Inductive PyErr : Type :=
| ZeroDivisionError
| OverflowError
| ValueError.

Inductive result (A : Type) : Type :=
| Ok (a : A)
| Raise (e : PyErr).

Arguments Ok {A} a.
Arguments Raise {A} e.

Definition rbind {A B : Type} (m : result A) (k : A -> result B) : result B :=
  match m with
  | Ok a => k a
  | Raise e => Raise e
  end.

Notation "'let!' x ':=' m 'in' k" := (rbind m (fun x => k))
  (at level 10, x pattern, m at level 100, k at level 200).

(** ** Python primitives used by the script *)

(** [x / y] on floats. *)
Definition py_div (x y : R) : result R :=
  if Req_dec_T y 0 then Raise ZeroDivisionError else Ok (x / y).

(** [int(x)] on a float: truncation toward zero. *)
Definition py_int (x : R) : Z :=
  if Rle_dec 0 x then Int_part x else (- Int_part (- x))%Z.

(** [a > b] and [a < b] on floats. *)
Definition py_gt (a b : R) : bool := if Rgt_dec a b then true else false.
Definition py_lt (a b : R) : bool := if Rlt_dec a b then true else false.

(** [max(a, b)] on floats: the first argument unless the second is
    strictly greater. *)
Definition py_max (a b : R) : R :=
  if Rlt_dec a b then b else a.

(** ** class Sho *)

Record Sho : Type := mkSho {
  wave_speed : R;
  period : R;
  t : R
}.

(** The wrap shared by [__init__] and [advance]:
    [if self.t > self.period or self.t < -self.period:
         self.t -= int(self.t / self.period) * self.period] *)
Definition wrap (ws p t0 : R) : result Sho :=
  if py_gt t0 p || py_lt t0 (- p) then
    let! q := py_div t0 p in
    Ok (mkSho ws p (t0 - IZR (py_int q) * p))
  else Ok (mkSho ws p t0).

(** [Sho.__init__(self, frequency, phase)] *)
Definition Sho_init (frequency phase : R) : result Sho :=
  let frequency := Rabs frequency in
  let ws := 2 * PI * frequency in
  let! p := py_div 1 frequency in
  let! t0 := py_div phase ws in
  wrap ws p t0.

(** [Sho.advance(self, dt)] *)
Definition advance (dt : R) (self : Sho) : result Sho :=
  wrap (wave_speed self) (period self) (t self + dt).

(** [Sho.sin], [Sho.cos], [Sho.theta] *)
Definition Sho_sin (self : Sho) : R := sin (t self * wave_speed self).
Definition Sho_cos (self : Sho) : R := cos (t self * wave_speed self).
Definition theta (self : Sho) : R := t self * wave_speed self.

(** ** class Sho over binary64

    The same class with the floats of the machine.  [int(x)] raises
    [OverflowError] on an infinity and [ValueError] on NaN; [int * float]
    first converts the integer to the nearest float. *)

Module F64.

Import Floats.
Local Open Scope float_scope.

(** [math.pi] *)
Definition pi : float := 0x1.921fb54442d18p+1.

(** [x / y] on floats. *)
Definition fdiv (x y : float) : result float :=
  if y =? 0 then Raise ZeroDivisionError else Ok (x / y).

(** [int(x)] on a float. *)
Definition int_of_float (x : float) : result Z :=
  match Prim2SF x with
  | S754_nan => Raise ValueError
  | S754_infinity _ => Raise OverflowError
  | S754_zero _ => Ok 0%Z
  | S754_finite s m e =>
      let a := (if (0 <=? e)%Z then Z.pos m * 2 ^ e
                else Z.pos m / 2 ^ (- e))%Z in
      Ok (if s then (- a)%Z else a)
  end.

(** The conversion of an [int] operand to [float]: the nearest float,
    ties to even; [OverflowError] when there is none. *)
Definition float_of_int (k : Z) : result float :=
  let f := SF2Prim (binary_normalize prec emax k 0 false) in
  if is_infinity f then Raise OverflowError else Ok f.

Record Sho : Type := mkSho {
  wave_speed : float;
  period : float;
  t : float
}.

(** [if self.t > self.period or self.t < -self.period:
         self.t -= int(self.t / self.period) * self.period] *)
Definition wrap (ws p t0 : float) : result Sho :=
  if ((p <? t0) || (t0 <? - p))%bool then
    let! q := fdiv t0 p in
    let! k := int_of_float q in
    let! kf := float_of_int k in
    Ok (mkSho ws p (t0 - kf * p))
  else Ok (mkSho ws p t0).

(** [Sho.__init__(self, frequency, phase)] *)
Definition Sho_init (frequency phase : float) : result Sho :=
  let frequency := abs frequency in
  let ws := 2 * pi * frequency in
  let! p := fdiv 1 frequency in
  let! t0 := fdiv phase ws in
  wrap ws p t0.

(** [Sho.advance(self, dt)] *)
Definition advance (dt : float) (self : Sho) : result Sho :=
  wrap (wave_speed self) (period self) (t self + dt).

(** [Sho.theta] *)
Definition theta (self : Sho) : float := t self * wave_speed self.


End F64.

(** ** Module-level state and constants

    Divisions by a nonzero literal are written with [/] directly. *)

Definition pulse_period : R := 16.
Definition oscillation_period : R := 2.
Definition pulse_speed : R := 2 * PI / pulse_period.
Definition oscillation_speed : R := 2 * PI / oscillation_period.

Definition amplitude : R := PI / 6.

Definition update_period : R := 1 / 10.

(** The two oscillators that [computeData] reads and mutates. *)
Record Globals : Type := mkGlobals {
  pulsor : Sho;
  rotator : Sho
}.

(** [pulsor = Sho(frequency = 1.0 / pulse_period, phase=0)]
    [rotator = Sho(frequency = 1.0 / oscillation_period, phase=0)] *)
Definition module_init : result Globals :=
  let! p := Sho_init (1 / pulse_period) 0 in
  let! r := Sho_init (1 / oscillation_period) 0 in
  Ok (mkGlobals p r).

(** ** computeData and the frame loop

    [puppetry.packedQuaternionFromEulerAngles] lives in the [puppetry]
    package, outside this file; it is a parameter of the development. *)

Inductive Event (Data : Type) : Type :=
| Sleep (d : R)
| Send (data : Data).

Arguments Sleep {Data} d.
Arguments Send {Data} data.

Section PoseGenerator.

Variable PackedRot : Type.
Variable packedQuaternionFromEulerAngles : R -> R -> R -> PackedRot.

(** [computeData(time_step)]: the new globals and the returned dict. *)
Definition computeData (time_step : R) (g : Globals)
  : result (Globals * gmap string (gmap string PackedRot)) :=
  let! pulsor' := advance time_step (pulsor g) in
  let! rotator' := advance time_step (rotator g) in
  let ps := Sho_sin pulsor' in
  let tilt := 0 in
  let '(nod, turn) :=
    if py_gt ps 0
    then ((amplitude * ps) * Sho_sin rotator', 0)
    else (0, (amplitude * ps) * Sho_sin rotator') in
  let packed_rot := packedQuaternionFromEulerAngles tilt nod turn in
  let data := {[ "mHead"%string := {[ "local_rot"%string := packed_rot ]} ]} in
  Ok (mkGlobals pulsor' rotator', data).

(** The [while puppetry.isRunning()] loop of [puppetry_coroutine].  The
    environment is the list [clock] of the values [time.monotonic()]
    returns, one per iteration; [isRunning()] is true exactly while a
    reading is left.  The result is the trace of the calls to
    [eventlet.sleep] and [puppetry.sendPuppetryData], and the exception
    that ended the loop, if any. *)
Fixpoint frame_loop (clock : list R) (t0 delta_time : R) (g : Globals)
  : list (Event (gmap string (gmap string PackedRot))) * option PyErr :=
  match clock with
  | [] => ([], None)
  | t1 :: clock' =>
      let slept := Sleep (py_max 0 (2 * update_period - delta_time)) in
      let delta_time := t1 - t0 in
      let t0 := t1 in
      match computeData delta_time g with
      | Raise e => ([slept], Some e)
      | Ok (g', data) =>
          let '(evs, exn) := frame_loop clock' t0 delta_time g' in
          (slept :: Send data :: evs, exn)
      end
  end.

(** [puppetry_coroutine()]; [now] is the first [time.monotonic()]. *)
Definition puppetry_coroutine (now : R) (clock : list R) (g : Globals)
  : list (Event (gmap string (gmap string PackedRot))) * option PyErr :=
  let t0 := now in
  let delta_time := update_period in
  frame_loop clock t0 delta_time g.

(** The calls [computeData(dt)] for [dt] in [dts], one after the other:
    the final globals and the list of the dicts returned. *)
Fixpoint run_frames (dts : list R) (g : Globals)
  : result (Globals * list (gmap string (gmap string PackedRot))) :=
  match dts with
  | [] => Ok (g, [])
  | dt :: dts' =>
      let! (g', data) := computeData dt g in
      let! (g'', out) := run_frames dts' g' in
      Ok (g'', data :: out)
  end.

End PoseGenerator.

(** The durations passed to [eventlet.sleep], in order. *)
Fixpoint sleeps {Data : Type} (evs : list (Event Data)) : list R :=
  match evs with
  | [] => []
  | Sleep d :: evs' => d :: sleeps evs'
  | Send _ :: evs' => sleeps evs'
  end.

(** The values the variable [delta_time] holds when [eventlet.sleep] is
    called: its initial value, then each measured [t1 - t0]. *)
Fixpoint delta_times (t0 delta_time : R) (clock : list R) : list R :=
  match clock with
  | [] => []
  | t1 :: clock' => delta_time :: delta_times t1 (t1 - t0) clock'
  end.

(** ** Vocabulary of the properties *)

(** What [__init__] establishes about the two derived constants. *)
Definition Sho_params (s : Sho) : Prop :=
  0 < period s /\ 0 < wave_speed s /\ period s * wave_speed s = 2 * PI.

(** The states an oscillator object can be in: built by the constructor,
    then changed by [advance] only. *)
Inductive reachable : Sho -> Prop :=
| reach_init (frequency phase : R) (s : Sho) :
    Sho_init frequency phase = Ok s -> reachable s
| reach_advance (dt : R) (s s' : Sho) :
    reachable s -> advance dt s = Ok s' -> reachable s'.

(** The states of the script's own two oscillators, [pulsor] and
    [rotator]: built with the script's frequencies and phase 0, then
    changed by [advance] only. *)
Inductive script_reachable : Sho -> Prop :=
| script_pulsor (s : Sho) :
    Sho_init (1 / pulse_period) 0 = Ok s -> script_reachable s
| script_rotator (s : Sho) :
    Sho_init (1 / oscillation_period) 0 = Ok s -> script_reachable s
| script_advance (dt : R) (s s' : Sho) :
    script_reachable s -> advance dt s = Ok s' -> script_reachable s'.

(** The oscillator [Sho(frequency, 0)] for a positive frequency. *)
Definition at_rest (frequency : R) : Sho :=
  mkSho (2 * PI * frequency) (1 / frequency) 0.

(** The module's globals once the two constructors have run. *)
Definition initial_globals : Globals :=
  mkGlobals (at_rest (1 / pulse_period)) (at_rest (1 / oscillation_period)).

(** Both oscillators of the globals are reachable oscillator states. *)
Definition Globals_reachable (g : Globals) : Prop :=
  reachable (pulsor g) /\ reachable (rotator g).


(** An encoder that keeps the three angles apart, for closed examples. *)
Definition euler (tilt nod turn : R) : R * R * R := (tilt, nod, turn).

(** The oscillator with its accumulator negated. *)
Definition mirror (s : Sho) : Sho :=
  mkSho (wave_speed s) (period s) (- t s).

(** The dicts passed to [puppetry.sendPuppetryData], in order. *)
Fixpoint sends {Data : Type} (evs : list (Event Data)) : list Data :=
  match evs with
  | [] => []
  | Sleep _ :: evs' => sends evs'
  | Send data :: evs' => data :: sends evs'
  end.

(** The time steps [t1 - t0] the loop passes to [computeData], one per
    clock reading. *)
Fixpoint measured (t0 : R) (clock : list R) : list R :=
  match clock with
  | [] => []
  | t1 :: clock' => (t1 - t0) :: measured t1 clock'
  end.

(** A clock that never runs backwards, as [time.monotonic()] promises. *)
Fixpoint monotonic (t0 : R) (clock : list R) : Prop :=
  match clock with
  | [] => True
  | t1 :: clock' => t0 <= t1 /\ monotonic t1 clock'
  end.

(** * Properties *)

(** ** The primitives *)

Lemma py_div_ok (x y : R) : y <> 0 -> py_div x y = Ok (x / y).
Proof.
  intros Hy. unfold py_div. destruct (Req_dec_T y 0); [contradiction | reflexivity].
Qed.

Lemma py_div_zero (x : R) : py_div x 0 = Raise ZeroDivisionError.
Proof.
  unfold py_div. destruct (Req_dec_T 0 0); [reflexivity | contradiction].
Qed.

Lemma py_gt_true (a b : R) : py_gt a b = true <-> b < a.
Proof.
  unfold py_gt. destruct (Rgt_dec a b) as [H | H]; unfold Rgt in H; split; intros; try discriminate; try lra; reflexivity.
Qed.

Lemma py_lt_true (a b : R) : py_lt a b = true <-> a < b.
Proof.
  unfold py_lt. destruct (Rlt_dec a b) as [H | H]; split; intros; try discriminate; try lra; reflexivity.
Qed.

Lemma py_gt_false (a b : R) : py_gt a b = false <-> a <= b.
Proof.
  unfold py_gt. destruct (Rgt_dec a b) as [H | H]; unfold Rgt in H; split; intros; try discriminate; try lra; reflexivity.
Qed.

Lemma py_lt_false (a b : R) : py_lt a b = false <-> b <= a.
Proof.
  unfold py_lt. destruct (Rlt_dec a b) as [H | H]; split; intros; try discriminate; try lra; reflexivity.
Qed.

(** Truncation toward zero leaves a remainder of the sign of [x] and of
    magnitude below one. *)
Lemma py_int_nonneg (x : R) : 0 <= x -> 0 <= x - IZR (py_int x) < 1.
Proof.
  intros Hx. unfold py_int. destruct (Rle_dec 0 x) as [_ | Hn]; [| contradiction].
  destruct (base_Int_part x) as [Hlo Hhi]. lra.
Qed.

Lemma py_int_neg (x : R) : x < 0 -> -1 < x - IZR (py_int x) <= 0.
Proof.
  intros Hx. unfold py_int. destruct (Rle_dec 0 x) as [Hp | _]; [lra |].
  rewrite opp_IZR. destruct (base_Int_part (- x)) as [Hlo Hhi]. lra.
Qed.

(** ** The wrap *)

Lemma wrap_fires_iff (p t0 : R) :
  py_gt t0 p || py_lt t0 (- p) = true <-> (p < t0 \/ t0 < - p).
Proof.
  rewrite orb_true_iff, py_gt_true, py_lt_true. reflexivity.
Qed.

Lemma wrap_idle (ws p t0 : R) :
  - p <= t0 <= p -> wrap ws p t0 = Ok (mkSho ws p t0).
Proof.
  intros [Hlo Hhi]. unfold wrap.
  destruct (py_gt t0 p || py_lt t0 (- p)) eqn:E; [| reflexivity].
  apply wrap_fires_iff in E. lra.
Qed.

Lemma wrap_fires (ws p t0 : R) :
  0 < p -> (p < t0 \/ t0 < - p) ->
  wrap ws p t0 = Ok (mkSho ws p (t0 - IZR (py_int (t0 / p)) * p)) /\
  - p < t0 - IZR (py_int (t0 / p)) * p < p.
Proof.
  intros Hp Hout. unfold wrap.
  destruct (py_gt t0 p || py_lt t0 (- p)) eqn:E.
  2:{ apply wrap_fires_iff in Hout. congruence. }
  rewrite py_div_ok by lra. simpl. split; [reflexivity |].
  assert (Ht : t0 = t0 / p * p) by (field; lra).
  set (q := t0 / p) in *. clearbody q.
  assert (Hd : t0 - IZR (py_int q) * p = (q - IZR (py_int q)) * p) by lra.
  rewrite Hd.
  destruct (Rle_dec 0 q) as [Hq | Hq].
  - pose proof (py_int_nonneg q Hq) as [H1 H2]. split; nra.
  - assert (Hq' : q < 0) by lra.
    pose proof (py_int_neg q Hq') as [H1 H2]. split; nra.
Qed.

(** With a positive period the wrap never raises, keeps the parameters,
    moves [t] by a whole number of periods and leaves it in
    [[-p, p]]. *)
Lemma wrap_total (ws p t0 : R) :
  0 < p ->
  exists k : Z,
    wrap ws p t0 = Ok (mkSho ws p (t0 - IZR k * p)) /\
    - p <= t0 - IZR k * p <= p.
Proof.
  intros Hp.
  destruct (py_gt t0 p || py_lt t0 (- p)) eqn:E.
  - apply wrap_fires_iff in E.
    destruct (wrap_fires ws p t0 Hp E) as [Heq Hb].
    exists (py_int (t0 / p)). split; [exact Heq | lra].
  - apply orb_false_iff in E. destruct E as [E1 E2].
    apply py_gt_false in E1. apply py_lt_false in E2.
    exists 0%Z. replace (t0 - 0 * p) with t0 by ring.
    split; [apply wrap_idle; lra | lra].
Qed.

(** ** Construction and the oscillator invariant *)

Lemma Sho_init_zero (phase : R) : Sho_init 0 phase = Raise ZeroDivisionError.
Proof.
  unfold Sho_init. rewrite Rabs_R0, py_div_zero. reflexivity.
Qed.

Lemma Sho_init_nonzero (frequency phase : R) :
  frequency <> 0 ->
  exists k : Z,
    let ws := 2 * PI * Rabs frequency in
    let p := 1 / Rabs frequency in
    Sho_init frequency phase = Ok (mkSho ws p (phase / ws - IZR k * p)) /\
    - p <= phase / ws - IZR k * p <= p.
Proof.
  intros Hf. pose proof (Rabs_pos_lt _ Hf) as Ha. pose proof PI_RGT_0 as Hpi.
  assert (Hp : 0 < 1 / Rabs frequency) by (apply Rdiv_lt_0_compat; lra).
  assert (Hws : 0 < 2 * PI * Rabs frequency) by nra.
  destruct (wrap_total (2 * PI * Rabs frequency) (1 / Rabs frequency)
              (phase / (2 * PI * Rabs frequency)) Hp) as [k [Hw Hb]].
  exists k. cbv zeta. split; [| exact Hb].
  unfold Sho_init. rewrite py_div_ok by lra. simpl.
  rewrite py_div_ok by lra. simpl. exact Hw.
Qed.

Lemma Sho_init_inv (frequency phase : R) (s : Sho) :
  Sho_init frequency phase = Ok s ->
  frequency <> 0 /\ Sho_params s /\ - period s <= t s <= period s.
Proof.
  intros Hs. destruct (Req_dec_T frequency 0) as [Hz | Hnz].
  - subst. rewrite Sho_init_zero in Hs. discriminate.
  - split; [exact Hnz |].
    destruct (Sho_init_nonzero frequency phase Hnz) as [k [Hk Hb]].
    cbv zeta in Hk, Hb. rewrite Hk in Hs. injection Hs as <-.
    pose proof (Rabs_pos_lt _ Hnz) as Ha. pose proof PI_RGT_0 as Hpi.
    unfold Sho_params; simpl. repeat split; try lra.
    + apply Rdiv_lt_0_compat; lra.
    + nra.
    + field. lra.
Qed.

Lemma advance_total (dt : R) (s : Sho) :
  0 < period s ->
  exists k : Z,
    advance dt s =
      Ok (mkSho (wave_speed s) (period s) (t s + dt - IZR k * period s)) /\
    - period s <= t s + dt - IZR k * period s <= period s.
Proof.
  intros Hp. unfold advance. apply wrap_total. exact Hp.
Qed.

Lemma advance_inv (dt : R) (s s' : Sho) :
  Sho_params s -> advance dt s = Ok s' ->
  Sho_params s' /\ - period s' <= t s' <= period s'.
Proof.
  intros (Hp & Hws & Hprod) Hadv.
  destruct (advance_total dt s Hp) as [k [Hk Hb]].
  rewrite Hk in Hadv. injection Hadv as <-.
  unfold Sho_params; simpl. repeat split; lra.
Qed.

Lemma reachable_inv (s : Sho) :
  reachable s -> Sho_params s /\ - period s <= t s <= period s.
Proof.
  induction 1 as [f ph s Hinit | dt s s' _ [IHp _] Hadv].
  - apply Sho_init_inv in Hinit. tauto.
  - eapply advance_inv; eassumption.
Qed.

Lemma Sho_init_at_rest (frequency : R) :
  0 < frequency -> Sho_init frequency 0 = Ok (at_rest frequency).
Proof.
  intros Hf. pose proof PI_RGT_0 as Hpi.
  assert (Hp : 0 < 1 / frequency) by (apply Rdiv_lt_0_compat; lra).
  unfold Sho_init. rewrite (Rabs_pos_eq frequency) by lra.
  rewrite py_div_ok by lra. simpl.
  rewrite py_div_ok by nra. simpl.
  replace (0 / (2 * PI * frequency)) with 0 by (unfold Rdiv; ring).
  apply wrap_idle. lra.
Qed.

Lemma reachable_at_rest (frequency : R) :
  0 < frequency -> reachable (at_rest frequency).
Proof.
  intros Hf. eapply reach_init. apply Sho_init_at_rest. exact Hf.
Qed.

Lemma module_init_ok : module_init = Ok initial_globals.
Proof.
  unfold module_init, pulse_period, oscillation_period.
  rewrite !Sho_init_at_rest by lra. reflexivity.
Qed.

Lemma initial_globals_reachable : Globals_reachable initial_globals.
Proof.
  split; apply reachable_at_rest; unfold pulse_period, oscillation_period; lra.
Qed.

Lemma advance_reachable (dt : R) (s : Sho) :
  reachable s -> exists s', advance dt s = Ok s' /\ reachable s'.
Proof.
  intros Hs. destruct (reachable_inv s Hs) as [(Hp & _) _].
  destruct (advance_total dt s Hp) as [k [Hk _]].
  eexists. split; [exact Hk |]. eapply reach_advance; eassumption.
Qed.

(** ** computeData *)

Section PoseGeneratorFacts.

Variable PackedRot : Type.
Variable enc : R -> R -> R -> PackedRot.

(** One frame, once both oscillators have advanced. *)
Lemma computeData_ok (dt : R) (g : Globals) (p' r' : Sho) :
  advance dt (pulsor g) = Ok p' ->
  advance dt (rotator g) = Ok r' ->
  computeData PackedRot enc dt g =
    Ok (mkGlobals p' r',
        {[ "mHead"%string :=
             {[ "local_rot"%string :=
                  enc 0
                    (if py_gt (Sho_sin p') 0
                     then amplitude * Sho_sin p' * Sho_sin r' else 0)
                    (if py_gt (Sho_sin p') 0
                     then 0 else amplitude * Sho_sin p' * Sho_sin r') ]} ]}).
Proof.
  intros Hp Hr. unfold computeData. rewrite Hp. simpl. rewrite Hr. simpl.
  destruct (py_gt (Sho_sin p') 0); reflexivity.
Qed.

Lemma computeData_reachable (dt : R) (g : Globals) :
  Globals_reachable g ->
  exists p' r',
    advance dt (pulsor g) = Ok p' /\ advance dt (rotator g) = Ok r' /\
    Globals_reachable (mkGlobals p' r').
Proof.
  intros [Hp Hr].
  destruct (advance_reachable dt _ Hp) as [p' [Ep Rp]].
  destruct (advance_reachable dt _ Hr) as [r' [Er Rr]].
  exists p', r'. repeat split; assumption.
Qed.

(** C1. In every frame, with [ps] the pulsor's sine after both
    oscillators advanced by [dt]: when [ps > 0] the emitted angles are
    [nod = amplitude * ps * rotator.sin()] and [turn = 0]; otherwise, [ps = 0]
    included, [nod = 0] and [turn = amplitude * ps * rotator.sin()]; [tilt]
    is 0 in both cases. *)
Theorem computeData_mode_switch (dt : R) (g : Globals) :
  Globals_reachable g ->
  exists (p' r' : Sho) (tilt nod turn : R),
    advance dt (pulsor g) = Ok p' /\
    advance dt (rotator g) = Ok r' /\
    computeData PackedRot enc dt g =
      Ok (mkGlobals p' r',
          {[ "mHead"%string :=
               {[ "local_rot"%string := enc tilt nod turn ]} ]}) /\
    tilt = 0 /\
    (Sho_sin p' > 0 ->
       nod = amplitude * Sho_sin p' * Sho_sin r' /\ turn = 0) /\
    (~ Sho_sin p' > 0 ->
       nod = 0 /\ turn = amplitude * Sho_sin p' * Sho_sin r').
Proof.
  intros Hg. destruct (computeData_reachable dt g Hg) as (p' & r' & Hp & Hr & _).
  pose proof (computeData_ok dt g p' r' Hp Hr) as Hc.
  destruct (py_gt (Sho_sin p') 0) eqn:E.
  - apply py_gt_true in E.
    exists p', r', 0, (amplitude * Sho_sin p' * Sho_sin r'), 0.
    repeat split; try assumption; try reflexivity; intros; lra.
  - apply py_gt_false in E.
    exists p', r', 0, 0, (amplitude * Sho_sin p' * Sho_sin r').
    repeat split; try assumption; try reflexivity; intros; lra.
Qed.

(** C2, as the code has it.  The pose update returned by [computeData]
    is a dict with the single key ["mHead"], whose value is a dict with
    the single key ["local_rot"], whose value is the rotation packed from
    [(tilt, nod, turn)]. *)
Theorem computeData_pose_update (dt : R) (g : Globals) :
  Globals_reachable g ->
  exists (g' : Globals) (data : gmap string (gmap string PackedRot))
         (inner : gmap string PackedRot) (nod turn : R),
    computeData PackedRot enc dt g = Ok (g', data) /\
    dom data = {[ "mHead"%string ]} /\
    data !! "mHead"%string = Some inner /\
    dom inner = {[ "local_rot"%string ]} /\
    inner !! "local_rot"%string = Some (enc 0 nod turn) /\
    nod = (if py_gt (Sho_sin (pulsor g')) 0
           then amplitude * Sho_sin (pulsor g') * Sho_sin (rotator g')
           else 0) /\
    turn = (if py_gt (Sho_sin (pulsor g')) 0
            then 0
            else amplitude * Sho_sin (pulsor g') * Sho_sin (rotator g')).
Proof.
  intros Hg. destruct (computeData_reachable dt g Hg) as (p' & r' & Hp & Hr & _).
  pose proof (computeData_ok dt g p' r' Hp Hr) as Hc.
  do 5 eexists. split; [exact Hc |]. simpl.
  rewrite !dom_singleton_L, !lookup_singleton_eq. repeat split; reflexivity.
Qed.

(** C6. In every frame the emitted [nod] and [turn] are bounded in
    magnitude by [amplitude], which is [PI / 6]. *)
Theorem computeData_amplitude_bound (dt : R) (g : Globals) :
  Globals_reachable g ->
  exists (g' : Globals) (nod turn : R),
    computeData PackedRot enc dt g =
      Ok (g', {[ "mHead"%string :=
                   {[ "local_rot"%string := enc 0 nod turn ]} ]}) /\
    Rabs nod <= amplitude /\ Rabs turn <= amplitude /\
    amplitude = PI / 6.
Proof.
  intros Hg. destruct (computeData_reachable dt g Hg) as (p' & r' & Hp & Hr & _).
  pose proof (computeData_ok dt g p' r' Hp Hr) as Hc.
  pose proof PI_RGT_0 as Hpi.
  assert (Hamp : 0 <= amplitude) by (unfold amplitude; lra).
  assert (Hprod : Rabs (amplitude * Sho_sin p' * Sho_sin r') <= amplitude).
  { rewrite !Rabs_mult, (Rabs_pos_eq amplitude) by exact Hamp.
    pose proof (SIN_bound (t p' * wave_speed p')) as [H1 H2].
    pose proof (SIN_bound (t r' * wave_speed r')) as [H3 H4].
    assert (Ha : Rabs (Sho_sin p') <= 1) by (apply Rabs_le; split; assumption).
    assert (Hb : Rabs (Sho_sin r') <= 1) by (apply Rabs_le; split; assumption).
    pose proof (Rabs_pos (Sho_sin p')) as Ha0.
    pose proof (Rabs_pos (Sho_sin r')) as Hb0.
    set (x := Rabs (Sho_sin p')) in *. set (y := Rabs (Sho_sin r')) in *.
    assert (Hxy : 0 <= x * y <= 1) by nra.
    rewrite Rmult_assoc. nra. }
  do 3 eexists. split; [exact Hc |].
  destruct (py_gt (Sho_sin p') 0); rewrite Rabs_R0; repeat split; auto.
Qed.

End PoseGeneratorFacts.

(** C2 fails as stated: the joint key of the returned dict is not
    ["Head"].  From the initial globals, [computeData(0.0)] returns no
    dict of the form [{"Head": {"local_rot": _}}]. *)
Lemma computeData_key_is_not_Head :
  ~ exists (g' : Globals) (packed : R * R * R),
      computeData (R * R * R) euler 0 initial_globals =
        Ok (g', {[ "Head"%string := {[ "local_rot"%string := packed ]} ]}).
Proof.
  intros (g' & packed & Hc).
  destruct (computeData_reachable 0 initial_globals initial_globals_reachable)
    as (p' & r' & Hp & Hr & _).
  rewrite (computeData_ok _ euler 0 _ p' r' Hp Hr) in Hc.
  apply (f_equal (fun r : result (Globals * gmap string (gmap string (R * R * R))) =>
                    match r with
                    | Ok (_, data) => data !! "mHead"%string
                    | Raise _ => None
                    end)) in Hc.
  cbv beta iota in Hc.
  rewrite lookup_singleton_eq, lookup_singleton_ne in Hc by discriminate.
  discriminate.
Qed.

(** ** The frame loop *)

Lemma py_max_Rmax (a b : R) : py_max a b = Rmax a b.
Proof.
  unfold py_max, Rmax. destruct (Rlt_dec a b), (Rle_dec a b); lra.
Qed.

Lemma length_delta_times (t0 delta_time : R) (clock : list R) :
  length (delta_times t0 delta_time clock) = length clock.
Proof.
  revert t0 delta_time.
  induction clock as [| t1 clock IH]; intros t0 delta_time; simpl;
    [reflexivity | rewrite IH; reflexivity].
Qed.

Section FrameLoopFacts.

Variable PackedRot : Type.
Variable enc : R -> R -> R -> PackedRot.

(** From reachable oscillators the loop raises nothing, and sleeps once
    per iteration for [max(0.0, 2 * update_period - delta_time)]. *)
Lemma frame_loop_sleeps (clock : list R) (t0 delta_time : R) (g : Globals) :
  Globals_reachable g ->
  snd (frame_loop PackedRot enc clock t0 delta_time g) = None /\
  sleeps (fst (frame_loop PackedRot enc clock t0 delta_time g)) =
    map (fun d => Rmax 0 (2 * update_period - d))
        (delta_times t0 delta_time clock).
Proof.
  revert t0 delta_time g.
  induction clock as [| t1 clock IH]; intros t0 delta_time g Hg.
  - split; reflexivity.
  - destruct (computeData_reachable (t1 - t0) g Hg) as (p' & r' & Hp & Hr & Hg').
    cbn [frame_loop delta_times map].
    rewrite (computeData_ok _ enc _ _ p' r' Hp Hr).
    specialize (IH t1 (t1 - t0) _ Hg').
    destruct (frame_loop PackedRot enc clock t1 (t1 - t0) (mkGlobals p' r'))
      as [evs exn].
    cbn [fst snd sleeps] in *. destruct IH as [IH1 IH2].
    split; [exact IH1 |]. rewrite IH2, py_max_Rmax. reflexivity.
Qed.

(** C3, as the code has it.  In every iteration of the frame loop the
    duration passed to [eventlet.sleep] is twice the update period (0.2)
    less the current [delta_time], floored at zero; [delta_time] is the
    update period (0.1) in the first iteration and afterwards the time
    measured between the last two clock readings. *)
Theorem puppetry_coroutine_sleeps (now : R) (clock : list R) (g : Globals) :
  Globals_reachable g ->
  sleeps (fst (puppetry_coroutine PackedRot enc now clock g)) =
    map (fun delta_time => Rmax 0 (2 / 10 - delta_time))
        (delta_times now (1 / 10) clock) /\
  length (sleeps (fst (puppetry_coroutine PackedRot enc now clock g))) =
    length clock.
Proof.
  intros Hg. unfold puppetry_coroutine.
  destruct (frame_loop_sleeps clock now update_period g Hg) as [_ Hs].
  rewrite Hs. unfold update_period.
  replace (2 * (1 / 10)) with (2 / 10) by lra.
  split; [reflexivity |].
  rewrite length_map. apply length_delta_times.
Qed.

End FrameLoopFacts.

(** C3 fails as stated.  With clock readings 0, 0.15, 0.3 the loop
    sleeps for 0.1 and then for 0.05, while [max(0, 0.1 - delta_time)] is
    0 both times. *)
Lemma sleep_is_not_period_minus_delta :
  sleeps (fst (puppetry_coroutine (R * R * R) euler 0 [3 / 20; 3 / 10]
                 initial_globals)) = [1 / 10; 1 / 20] /\
  map (fun delta_time => Rmax 0 (update_period - delta_time))
      (delta_times 0 update_period [3 / 20; 3 / 10]) = [0; 0] /\
  sleeps (fst (puppetry_coroutine (R * R * R) euler 0 [3 / 20; 3 / 10]
                 initial_globals)) <>
    map (fun delta_time => Rmax 0 (update_period - delta_time))
        (delta_times 0 update_period [3 / 20; 3 / 10]).
Proof.
  unfold puppetry_coroutine.
  destruct (frame_loop_sleeps (R * R * R) euler [3 / 20; 3 / 10] 0
              update_period initial_globals initial_globals_reachable)
    as [_ Hs].
  rewrite Hs. cbn [delta_times map]. unfold update_period.
  assert (E1 : Rmax 0 (2 * (1 / 10) - 1 / 10) = 1 / 10)
    by (rewrite Rmax_right; lra).
  assert (E2 : Rmax 0 (2 * (1 / 10) - (3 / 20 - 0)) = 1 / 20)
    by (rewrite Rmax_right; lra).
  assert (E3 : Rmax 0 (1 / 10 - 1 / 10) = 0) by (apply Rmax_left; lra).
  assert (E4 : Rmax 0 (1 / 10 - (3 / 20 - 0)) = 0) by (apply Rmax_left; lra).
  rewrite E1, E2, E3, E4. repeat split.
  intros H. injection H as H1 H2. lra.
Qed.

(** ** The oscillator claims *)

Lemma script_reachable_reachable (s : Sho) :
  script_reachable s -> reachable s.
Proof.
  induction 1 as [s H | s H | dt s s' _ IH Hadv].
  - eapply reach_init; exact H.
  - eapply reach_init; exact H.
  - eapply reach_advance; eassumption.
Qed.

Lemma script_reachable_pulsor : script_reachable (at_rest (1 / pulse_period)).
Proof.
  apply script_pulsor, Sho_init_at_rest. unfold pulse_period. lra.
Qed.







(** C9. The oscillator [Sho(1/16, 0)] after [advance(4.0)], a quarter
    period: [sin()] is 1 and [cos()] is 0. *)
Theorem quarter_period_scenario :
  exists s s' : Sho,
    Sho_init (1 / 16) 0 = Ok s /\
    advance 4 s = Ok s' /\
    Sho_sin s' = 1 /\ Sho_cos s' = 0.
Proof.
  exists (at_rest (1 / 16)), (mkSho (2 * PI * (1 / 16)) (1 / (1 / 16)) (0 + 4)).
  split; [apply Sho_init_at_rest; lra |].
  split.
  - unfold advance, at_rest; simpl. apply wrap_idle. lra.
  - unfold Sho_sin, Sho_cos; simpl.
    replace ((0 + 4) * (2 * PI * (1 / 16))) with (PI / 2) by lra.
    split; [apply sin_PI2 | apply cos_PI2].
Qed.

(** ** Repeated frames *)

Lemma advance_zero_at_rest (frequency : R) :
  0 < frequency -> advance 0 (at_rest frequency) = Ok (at_rest frequency).
Proof.
  intros Hf. assert (Hp : 0 < 1 / frequency) by (apply Rdiv_lt_0_compat; lra).
  unfold advance, at_rest; simpl. rewrite Rplus_0_r. apply wrap_idle. lra.
Qed.

Section RepeatedFrames.

Variable PackedRot : Type.
Variable enc : R -> R -> R -> PackedRot.

Lemma computeData_zero_initial :
  computeData PackedRot enc 0 initial_globals =
    Ok (initial_globals,
        {[ "mHead"%string := {[ "local_rot"%string := enc 0 0 0 ]} ]}).
Proof.
  assert (Hp : 0 < 1 / pulse_period) by (unfold pulse_period; lra).
  assert (Hr : 0 < 1 / oscillation_period) by (unfold oscillation_period; lra).
  rewrite (computeData_ok _ enc 0 initial_globals _ _
             (advance_zero_at_rest _ Hp) (advance_zero_at_rest _ Hr)).
  assert (Hs : Sho_sin (at_rest (1 / pulse_period)) = 0).
  { unfold Sho_sin, at_rest; simpl. rewrite Rmult_0_l. apply sin_0. }
  rewrite Hs.
  replace (py_gt 0 0) with false by (symmetry; apply py_gt_false; lra).
  replace (amplitude * 0 * Sho_sin (at_rest (1 / oscillation_period)))
    with 0 by ring.
  reflexivity.
Qed.

(** C8. From the initial state (pulsor of period 16, rotator of period
    2, both with phase 0), any number of calls [computeData(0.0)] leave
    both oscillators as they were and each return the pose of [t = 0],
    packed from [tilt = 0], [nod = 0], [turn = 0]. *)
Theorem zero_dt_scenario (n : nat) :
  module_init = Ok initial_globals /\
  period (pulsor initial_globals) = 16 /\
  period (rotator initial_globals) = 2 /\
  t (pulsor initial_globals) = 0 /\
  t (rotator initial_globals) = 0 /\
  amplitude = PI / 6 /\
  run_frames PackedRot enc (repeat 0 n) initial_globals =
    Ok (initial_globals,
        repeat {[ "mHead"%string := {[ "local_rot"%string := enc 0 0 0 ]} ]} n).
Proof.
  split; [exact module_init_ok |].
  split; [unfold initial_globals, at_rest, pulse_period; simpl; lra |].
  split; [unfold initial_globals, at_rest, oscillation_period; simpl; lra |].
  do 3 (split; [reflexivity |]).
  induction n as [| n IH]; [reflexivity |].
  cbn [repeat run_frames]. rewrite computeData_zero_initial. simpl.
  rewrite IH. reflexivity.
Qed.

End RepeatedFrames.

(** ** The theorems at concrete inputs *)

Lemma computeData_mode_switch_witness :
  Globals_reachable initial_globals /\
  exists (p' r' : Sho) (tilt nod turn : R),
    advance 1 (pulsor initial_globals) = Ok p' /\
    advance 1 (rotator initial_globals) = Ok r' /\
    computeData (R * R * R) euler 1 initial_globals =
      Ok (mkGlobals p' r',
          {[ "mHead"%string :=
               {[ "local_rot"%string := euler tilt nod turn ]} ]}) /\
    tilt = 0 /\
    (Sho_sin p' > 0 ->
       nod = amplitude * Sho_sin p' * Sho_sin r' /\ turn = 0) /\
    (~ Sho_sin p' > 0 ->
       nod = 0 /\ turn = amplitude * Sho_sin p' * Sho_sin r').
Proof.
  split.
  - exact initial_globals_reachable.
  - exact (computeData_mode_switch (R * R * R) euler 1 initial_globals
             initial_globals_reachable).
Defined.

Lemma computeData_pose_update_witness :
  Globals_reachable initial_globals /\
  exists (g' : Globals) (data : gmap string (gmap string (R * R * R)))
         (inner : gmap string (R * R * R)) (nod turn : R),
    computeData (R * R * R) euler 1 initial_globals = Ok (g', data) /\
    dom data = {[ "mHead"%string ]} /\
    data !! "mHead"%string = Some inner /\
    dom inner = {[ "local_rot"%string ]} /\
    inner !! "local_rot"%string = Some (euler 0 nod turn) /\
    nod = (if py_gt (Sho_sin (pulsor g')) 0
           then amplitude * Sho_sin (pulsor g') * Sho_sin (rotator g')
           else 0) /\
    turn = (if py_gt (Sho_sin (pulsor g')) 0
            then 0
            else amplitude * Sho_sin (pulsor g') * Sho_sin (rotator g')).
Proof.
  split.
  - exact initial_globals_reachable.
  - exact (computeData_pose_update (R * R * R) euler 1 initial_globals
             initial_globals_reachable).
Defined.

Lemma computeData_amplitude_bound_witness :
  Globals_reachable initial_globals /\
  exists (g' : Globals) (nod turn : R),
    computeData (R * R * R) euler 1 initial_globals =
      Ok (g', {[ "mHead"%string :=
                   {[ "local_rot"%string := euler 0 nod turn ]} ]}) /\
    Rabs nod <= amplitude /\ Rabs turn <= amplitude /\
    amplitude = PI / 6.
Proof.
  split.
  - exact initial_globals_reachable.
  - exact (computeData_amplitude_bound (R * R * R) euler 1 initial_globals
             initial_globals_reachable).
Defined.

Lemma puppetry_coroutine_sleeps_witness :
  Globals_reachable initial_globals /\
  sleeps (fst (puppetry_coroutine (R * R * R) euler 0 [3 / 20; 3 / 10]
                 initial_globals)) =
    map (fun delta_time => Rmax 0 (2 / 10 - delta_time))
        (delta_times 0 (1 / 10) [3 / 20; 3 / 10]) /\
  length (sleeps (fst (puppetry_coroutine (R * R * R) euler 0
                         [3 / 20; 3 / 10] initial_globals))) =
    length [3 / 20; 3 / 10].
Proof.
  split.
  - exact initial_globals_reachable.
  - exact (puppetry_coroutine_sleeps (R * R * R) euler 0 [3 / 20; 3 / 10]
             initial_globals initial_globals_reachable).
Defined.

(** * Further properties of the oscillator *)

(** ** Supporting lemmas *)

Lemma py_int_opp (x : R) : py_int (- x) = (- py_int x)%Z.
Proof.
  unfold py_int.
  destruct (Rle_dec 0 (- x)) as [Hn | Hn], (Rle_dec 0 x) as [Hp | Hp].
  - assert (Hx : x = 0) by lra. subst x. rewrite Ropp_0.
    rewrite <- (Int_part_spec 0 0%Z) by lra. reflexivity.
  - rewrite Z.opp_involutive. reflexivity.
  - rewrite Ropp_involutive. reflexivity.
  - lra.
Qed.

(** A firing wrap keeps the sign of the accumulator. *)
Lemma wrap_fires_sign (p t0 : R) :
  0 < p ->
  (p < t0 -> 0 <= t0 - IZR (py_int (t0 / p)) * p < p) /\
  (t0 < - p -> - p < t0 - IZR (py_int (t0 / p)) * p <= 0).
Proof.
  intros Hp.
  assert (Ht : t0 = t0 / p * p) by (field; lra).
  set (q := t0 / p) in *. clearbody q.
  assert (Hd : t0 - IZR (py_int q) * p = (q - IZR (py_int q)) * p) by lra.
  rewrite Hd. split; intros Hout.
  - assert (Hq : 0 <= q) by nra.
    pose proof (py_int_nonneg q Hq) as [H1 H2]. split; nra.
  - assert (Hq : q < 0) by nra.
    pose proof (py_int_neg q Hq) as [H1 H2]. split; nra.
Qed.

Lemma wrap_opp (ws p t0 : R) (s' : Sho) :
  wrap ws p t0 = Ok s' -> wrap ws p (- t0) = Ok (mirror s').
Proof.
  unfold wrap.
  assert (Hc : py_gt (- t0) p || py_lt (- t0) (- p)
               = py_gt t0 p || py_lt t0 (- p)).
  { destruct (py_gt (- t0) p || py_lt (- t0) (- p)) eqn:E1;
      destruct (py_gt t0 p || py_lt t0 (- p)) eqn:E2; try reflexivity.
    - apply wrap_fires_iff in E1. apply not_true_iff_false in E2.
      rewrite wrap_fires_iff in E2. exfalso. apply E2. lra.
    - apply wrap_fires_iff in E2. apply not_true_iff_false in E1.
      rewrite wrap_fires_iff in E1. exfalso. apply E1. lra. }
  rewrite Hc. destruct (py_gt t0 p || py_lt t0 (- p)).
  - destruct (Req_dec_T p 0) as [Hz | Hnz].
    + subst p. rewrite py_div_zero. discriminate.
    + rewrite !py_div_ok by exact Hnz. simpl. intros H. injection H as <-.
      unfold mirror; simpl. f_equal. f_equal.
      replace (- t0 / p) with (- (t0 / p)) by (field; exact Hnz).
      rewrite py_int_opp, opp_IZR. ring.
  - intros H. injection H as <-. reflexivity.
Qed.

(** ** advance *)


(** X4. For the script's oscillators [advance(dt)] returns, and the
    wrap never moves the accumulator across zero nor away from it: the
    new [t] has the sign of [t + dt] and at most its magnitude. *)
Theorem advance_keeps_sign (dt : R) (s : Sho) :
  script_reachable s ->
  exists s' : Sho,
    advance dt s = Ok s' /\
    (0 <= t s + dt -> 0 <= t s') /\
    (t s + dt <= 0 -> t s' <= 0) /\
    Rabs (t s') <= Rabs (t s + dt).
Proof.
  intros Hs. apply script_reachable_reachable in Hs.
  destruct (reachable_inv s Hs) as [(Hp & _) _].
  unfold advance. set (t0 := t s + dt).
  destruct (wrap_fires_sign (period s) t0 Hp) as [Hpos Hneg].
  destruct (Rlt_dec (period s) t0) as [Hhi | Hhi].
  - destruct (wrap_fires (wave_speed s) (period s) t0 Hp (or_introl Hhi))
      as [Hw _].
    specialize (Hpos Hhi). eexists. split; [exact Hw |]. simpl.
    repeat split; try lra.
    rewrite !Rabs_pos_eq by lra. lra.
  - destruct (Rlt_dec t0 (- period s)) as [Hlo | Hlo].
    + destruct (wrap_fires (wave_speed s) (period s) t0 Hp (or_intror Hlo))
        as [Hw _].
      specialize (Hneg Hlo). eexists. split; [exact Hw |]. simpl.
      repeat split; try lra.
      rewrite !Rabs_left1 by lra. lra.
    + eexists. split; [apply wrap_idle; lra |]. simpl.
      repeat split; auto. lra.
Qed.

(** X5. Truncation toward zero makes the oscillator symmetric in time:
    if [advance(dt)] takes [t] to [t'], then [advance(-dt)] takes [-t] to
    [-t'], where [sin()] is negated and [cos()] unchanged. *)
Theorem advance_mirror (dt : R) (s s' : Sho) :
  advance dt s = Ok s' ->
  advance (- dt) (mirror s) = Ok (mirror s') /\
  Sho_sin (mirror s') = - Sho_sin s' /\
  Sho_cos (mirror s') = Sho_cos s'.
Proof.
  intros Hadv. split; [| split].
  - unfold advance in *. simpl.
    replace (- t s + - dt) with (- (t s + dt)) by ring.
    apply wrap_opp in Hadv. exact Hadv.
  - unfold Sho_sin, mirror; simpl.
    rewrite <- sin_neg. f_equal. ring.
  - unfold Sho_cos, mirror; simpl.
    rewrite <- (cos_neg (t s' * wave_speed s')). f_equal. ring.
Qed.

(** In every reachable state [advance(0.0)] changes nothing. *)
Lemma advance_zero_reachable (s : Sho) :
  reachable s -> advance 0 s = Ok s.
Proof.
  intros Hs. destruct (reachable_inv s Hs) as [_ Hb].
  unfold advance. rewrite Rplus_0_r, wrap_idle by exact Hb.
  destruct s; reflexivity.
Qed.

(** * Further properties of the pose generator *)

Section PoseGeneratorExtras.

Variable PackedRot : Type.
Variable enc : R -> R -> R -> PackedRot.

(** X8. In every reachable state a frame of zero time step leaves both
    oscillators as they are, so any number of frames [computeData(0.0)]
    return one and the same pose. *)
Theorem zero_step_is_identity (g : Globals) :
  Globals_reachable g ->
  exists data : gmap string (gmap string PackedRot),
    computeData PackedRot enc 0 g = Ok (g, data) /\
    forall n : nat,
      run_frames PackedRot enc (repeat 0 n) g = Ok (g, repeat data n).
Proof.
  intros [Hp Hr].
  pose proof (computeData_ok _ enc 0 g _ _ (advance_zero_reachable _ Hp)
                (advance_zero_reachable _ Hr)) as Hc.
  replace (mkGlobals (pulsor g) (rotator g)) with g in Hc
    by (destruct g; reflexivity).
  eexists. split; [exact Hc |].
  induction n as [| n IH]; [reflexivity |].
  cbn [repeat run_frames]. rewrite Hc. simpl. rewrite IH. reflexivity.
Qed.

(** X9. In every frame at most one of [nod] and [turn] is nonzero, and
    its magnitude is at most [amplitude * |pulsor.sin()|]: the motion
    fades to zero where the mode switches. *)
Theorem computeData_fades_at_switch (dt : R) (g : Globals) :
  Globals_reachable g ->
  exists (g' : Globals) (nod turn : R),
    computeData PackedRot enc dt g =
      Ok (g', {[ "mHead"%string :=
                   {[ "local_rot"%string := enc 0 nod turn ]} ]}) /\
    (nod = 0 \/ turn = 0) /\
    Rabs nod <= amplitude * Rabs (Sho_sin (pulsor g')) /\
    Rabs turn <= amplitude * Rabs (Sho_sin (pulsor g')).
Proof.
  intros Hg. destruct (computeData_reachable dt g Hg) as (p' & r' & Hp & Hr & _).
  pose proof (computeData_ok _ enc dt g p' r' Hp Hr) as Hc.
  pose proof PI_RGT_0 as Hpi.
  assert (Hamp : 0 <= amplitude) by (unfold amplitude; lra).
  pose proof (Rabs_pos (Sho_sin p')) as Hps.
  assert (Hzero : Rabs 0 <= amplitude * Rabs (Sho_sin p'))
    by (rewrite Rabs_R0; nra).
  assert (Hprod : Rabs (amplitude * Sho_sin p' * Sho_sin r')
                  <= amplitude * Rabs (Sho_sin p')).
  { rewrite !Rabs_mult, (Rabs_pos_eq amplitude) by exact Hamp.
    pose proof (SIN_bound (t r' * wave_speed r')) as [H3 H4].
    assert (Hb : Rabs (Sho_sin r') <= 1) by (apply Rabs_le; split; assumption).
    pose proof (Rabs_pos (Sho_sin r')) as Hb0.
    set (x := Rabs (Sho_sin p')) in *. set (y := Rabs (Sho_sin r')) in *.
    assert (Hax : 0 <= amplitude * x) by nra. nra. }
  do 3 eexists. split; [exact Hc |]. simpl.
  destruct (py_gt (Sho_sin p') 0); repeat split; auto.
Qed.

End PoseGeneratorExtras.

(** * Further properties of the frame loop *)

(** ** Supporting lemmas *)

Lemma delta_times_nonneg (t0 delta_time : R) (clock : list R) :
  0 <= delta_time -> monotonic t0 clock ->
  Forall (fun d => 0 <= d) (delta_times t0 delta_time clock).
Proof.
  revert t0 delta_time.
  induction clock as [| t1 clock IH]; intros t0 delta_time Hd Hm; simpl.
  - constructor.
  - destruct Hm as [Hle Hm]. constructor; [exact Hd |].
    apply IH; [lra | exact Hm].
Qed.

Lemma sends_interleave {Data : Type} (ds : list R) (out : list Data) :
  length ds = length out ->
  sends (flat_map (fun dx : R * Data => [Sleep (fst dx); Send (snd dx)])
           (combine ds out)) = out /\
  sleeps (flat_map (fun dx : R * Data => [Sleep (fst dx); Send (snd dx)])
            (combine ds out)) = ds.
Proof.
  revert out. induction ds as [| d ds IH]; intros [| x out] Hlen;
    simpl in Hlen; try discriminate.
  - split; reflexivity.
  - injection Hlen as Hlen. destruct (IH out Hlen) as [H1 H2].
    cbn [combine flat_map app sends sleeps fst snd].
    rewrite H1, H2. split; reflexivity.
Qed.

Section FrameLoopExtras.

Variable PackedRot : Type.
Variable enc : R -> R -> R -> PackedRot.

(** From reachable globals the loop is the sequence of frames over the
    measured time steps, each sent right after its sleep. *)
Lemma frame_loop_trace (clock : list R) (t0 delta_time : R) (g : Globals) :
  Globals_reachable g ->
  exists (g' : Globals) (out : list (gmap string (gmap string PackedRot))),
    run_frames PackedRot enc (measured t0 clock) g = Ok (g', out) /\
    length out = length clock /\
    frame_loop PackedRot enc clock t0 delta_time g =
      (flat_map (fun dx => [Sleep (fst dx); Send (snd dx)])
         (combine
            (map (fun d => py_max 0 (2 * update_period - d))
               (delta_times t0 delta_time clock))
            out),
       None).
Proof.
  revert t0 delta_time g.
  induction clock as [| t1 clock IH]; intros t0 delta_time g Hg.
  - exists g, []. repeat split; reflexivity.
  - destruct (computeData_reachable (t1 - t0) g Hg) as (p' & r' & Hp & Hr & Hg').
    destruct (IH t1 (t1 - t0) _ Hg') as (g' & out & Hrun & Hlen & Hloop).
    eexists g', (_ :: out).
    cbn [frame_loop measured run_frames delta_times map combine flat_map].
    rewrite (computeData_ok _ enc _ _ p' r' Hp Hr). simpl.
    rewrite Hrun, Hloop, Hlen. simpl. repeat split; reflexivity.
Qed.

End FrameLoopExtras.

Section FrameLoopTheorems.

Variable PackedRot : Type.
Variable enc : R -> R -> R -> PackedRot.

(** X12. From reachable globals the coroutine raises nothing; its
    trace is, for each clock reading in turn, one sleep followed by one
    send, and the dicts sent are the frames [computeData] returns for the
    successive differences of the clock readings. *)
Theorem puppetry_coroutine_trace (now : R) (clock : list R) (g : Globals) :
  Globals_reachable g ->
  exists (g' : Globals) (out : list (gmap string (gmap string PackedRot))),
    run_frames PackedRot enc (measured now clock) g = Ok (g', out) /\
    length out = length clock /\
    puppetry_coroutine PackedRot enc now clock g =
      (flat_map (fun dx => [Sleep (fst dx); Send (snd dx)])
         (combine
            (map (fun d => py_max 0 (2 * update_period - d))
               (delta_times now update_period clock))
            out),
       None) /\
    sends (fst (puppetry_coroutine PackedRot enc now clock g)) = out.
Proof.
  intros Hg. unfold puppetry_coroutine.
  destruct (frame_loop_trace PackedRot enc clock now update_period g Hg)
    as (g' & out & Hrun & Hlen & Hloop).
  exists g', out. split; [exact Hrun |]. split; [exact Hlen |].
  split; [exact Hloop |]. rewrite Hloop. cbn [fst].
  apply sends_interleave.
  rewrite length_map, length_delta_times, Hlen. reflexivity.
Qed.

(** X13. With a clock that never runs backwards, every duration
    passed to [eventlet.sleep] lies between 0 and twice the update
    period. *)
Theorem sleeps_bounded (now : R) (clock : list R) (g : Globals) :
  Globals_reachable g -> monotonic now clock ->
  Forall (fun d => 0 <= d <= 2 * update_period)
    (sleeps (fst (puppetry_coroutine PackedRot enc now clock g))).
Proof.
  intros Hg Hm. unfold puppetry_coroutine.
  destruct (frame_loop_sleeps PackedRot enc clock now update_period g Hg)
    as [_ Hs].
  rewrite Hs.
  assert (Hu : 0 <= update_period) by (unfold update_period; lra).
  pose proof (delta_times_nonneg now update_period clock Hu Hm) as Hd.
  clear Hs. induction Hd as [| d ds Hd0 _ IH]; simpl.
  - constructor.
  - constructor; [| exact IH].
    unfold Rmax. destruct (Rle_dec 0 (2 * update_period - d)); lra.
Qed.

End FrameLoopTheorems.

(** ** The further theorems at concrete inputs *)

Lemma advance_keeps_sign_witness :
  script_reachable (at_rest (1 / pulse_period)) /\
  exists s' : Sho,
    advance (-20) (at_rest (1 / pulse_period)) = Ok s' /\
    (0 <= t (at_rest (1 / pulse_period)) + -20 -> 0 <= t s') /\
    (t (at_rest (1 / pulse_period)) + -20 <= 0 -> t s' <= 0) /\
    Rabs (t s') <= Rabs (t (at_rest (1 / pulse_period)) + -20).
Proof.
  split; [exact script_reachable_pulsor |].
  exact (advance_keeps_sign (-20) _ script_reachable_pulsor).
Defined.

Lemma advance_mirror_witness :
  advance 4 (at_rest (1 / 16)) =
    Ok (mkSho (2 * PI * (1 / 16)) (1 / (1 / 16)) (0 + 4)) /\
  advance (- 4) (mirror (at_rest (1 / 16))) =
    Ok (mirror (mkSho (2 * PI * (1 / 16)) (1 / (1 / 16)) (0 + 4))).
Proof.
  assert (Hadv : advance 4 (at_rest (1 / 16)) =
                 Ok (mkSho (2 * PI * (1 / 16)) (1 / (1 / 16)) (0 + 4))).
  { unfold advance, at_rest; simpl. apply wrap_idle. lra. }
  split; [exact Hadv | exact (proj1 (advance_mirror 4 _ _ Hadv))].
Defined.

Lemma zero_step_is_identity_witness :
  Globals_reachable initial_globals /\
  exists data : gmap string (gmap string (R * R * R)),
    computeData (R * R * R) euler 0 initial_globals =
      Ok (initial_globals, data) /\
    forall n : nat,
      run_frames (R * R * R) euler (repeat 0 n) initial_globals =
        Ok (initial_globals, repeat data n).
Proof.
  split.
  - exact initial_globals_reachable.
  - exact (zero_step_is_identity (R * R * R) euler initial_globals
             initial_globals_reachable).
Defined.

Lemma computeData_fades_at_switch_witness :
  Globals_reachable initial_globals /\
  exists (g' : Globals) (nod turn : R),
    computeData (R * R * R) euler 1 initial_globals =
      Ok (g', {[ "mHead"%string :=
                   {[ "local_rot"%string := euler 0 nod turn ]} ]}) /\
    (nod = 0 \/ turn = 0) /\
    Rabs nod <= amplitude * Rabs (Sho_sin (pulsor g')) /\
    Rabs turn <= amplitude * Rabs (Sho_sin (pulsor g')).
Proof.
  split.
  - exact initial_globals_reachable.
  - exact (computeData_fades_at_switch (R * R * R) euler 1 initial_globals
             initial_globals_reachable).
Defined.

Lemma puppetry_coroutine_trace_witness :
  Globals_reachable initial_globals /\
  exists (g' : Globals)
         (out : list (gmap string (gmap string (R * R * R)))),
    run_frames (R * R * R) euler (measured 0 [3 / 20; 3 / 10])
      initial_globals = Ok (g', out) /\
    length out = length [3 / 20; 3 / 10] /\
    sends (fst (puppetry_coroutine (R * R * R) euler 0 [3 / 20; 3 / 10]
                  initial_globals)) = out.
Proof.
  split; [exact initial_globals_reachable |].
  destruct (puppetry_coroutine_trace (R * R * R) euler 0 [3 / 20; 3 / 10]
              initial_globals initial_globals_reachable)
    as (g' & out & Hrun & Hlen & _ & Hsends).
  exists g', out. split; [exact Hrun |]. split; [exact Hlen | exact Hsends].
Defined.

Lemma sleeps_bounded_witness :
  Globals_reachable initial_globals /\ monotonic 0 [3 / 20; 3 / 10] /\
  Forall (fun d => 0 <= d <= 2 * update_period)
    (sleeps (fst (puppetry_coroutine (R * R * R) euler 0 [3 / 20; 3 / 10]
                    initial_globals))).
Proof.
  assert (Hm : monotonic 0 [3 / 20; 3 / 10]) by (simpl; repeat split; lra).
  split; [exact initial_globals_reachable |]. split; [exact Hm |].
  exact (sleeps_bounded (R * R * R) euler 0 [3 / 20; 3 / 10] initial_globals
           initial_globals_reachable Hm).
Defined.

(** * Where binary64 leaves the real reading *)

Module Binary64.

Import Floats.






(** An object with a zero period does arise: [Sho(inf)] has the period
    [1.0 / inf = 0.0], and its [advance(1.0)] raises [ZeroDivisionError]. *)
Lemma infinite_frequency_has_zero_period :
  exists s : F64.Sho,
    F64.Sho_init infinity 0%float = Ok s /\
    F64.period s = 0%float /\
    F64.advance 1%float s = Raise ZeroDivisionError.
Proof.
  eexists. split; [vm_compute; reflexivity |]. split; vm_compute; reflexivity.
Qed.

(** The script's own oscillators at the far ends of binary64: advancing
    [pulsor] by the largest float and [rotator] by its opposite returns,
    with [t] within the period. *)
Lemma script_oscillators_at_extremes :
  exists p p' r r' : F64.Sho,
    F64.Sho_init (1 / 16)%float 0%float = Ok p /\
    F64.advance 0x1.fffffffffffffp1023%float p = Ok p' /\
    F64.period p' = 16%float /\
    (F64.t p' <=? F64.period p')%float = true /\
    (- F64.period p' <=? F64.t p')%float = true /\
    F64.Sho_init (1 / 2)%float 0%float = Ok r /\
    F64.advance (-0x1.fffffffffffffp1023)%float r = Ok r' /\
    F64.period r' = 2%float /\
    (F64.t r' <=? F64.period r')%float = true /\
    (- F64.period r' <=? F64.t r')%float = true.
Proof.
  do 4 eexists.
  repeat (split; [vm_compute; reflexivity |]). vm_compute. reflexivity.
Qed.

End Binary64.

(** ** The amended oscillator theorems at concrete inputs *)




